(** * Gaussian-process conditioning: the numeric core of the notebook
    [notebooks/3d-Gaussian-Processes.ipynb].

    The notebook defines three functions, [exponential_cov], [conditional]
    and [predict], on top of NumPy.  They are embedded twice.

    The main embedding is over the real numbers of the Standard Library:
    Python floats are read as exact reals, NumPy arrays of rank at most two
    are carried by MathComp matrices, Python exceptions by an error monad,
    and [np.linalg.inv] by MathComp's [invmx], guarded by [unitmx].  It
    gives the formulas the functions compute, the shapes of their results,
    the agreement between them and the order of their failure points.  It
    does not see rounding: a strict inequality, a sign, an exact zero, or
    the boundary between an invertible and a singular matrix need not
    survive the passage to binary64.

    The module [Binary64] embeds [exponential_cov] and [predict] a second
    time, over the primitive binary64 numbers, and is used to evaluate the
    functions at concrete inputs where rounding decides the outcome. *)

From Stdlib Require Import Reals Lra Epsilon FunctionalExtensionality.
From Stdlib Require Import Floats ZArith.
From HB Require Import structures.
From mathcomp Require Import boot algebra.

Set Implicit Arguments.
Unset Strict Implicit.
Unset Printing Implicit Defensive.

Import GRing.Theory.

(** Stdlib's real notations stay reachable under the key [Re]; the key [R]
    belongs to MathComp's ring scope from here on. *)
Delimit Scope R_scope with Re.
Local Open Scope ring_scope.

(** ** The reals as a MathComp field *)

Definition eqr (a b : R) : bool :=
  if Req_EM_T a b is left _ then true else false.

Lemma eqr_spec : Equality.axiom eqr.
Proof. by move=> a b; rewrite /eqr; case: Req_EM_T => h; constructor. Qed.

HB.instance Definition _ := hasDecEq.Build R eqr_spec.

Lemma R_inhabited : inhabited R.
Proof. exact: (inhabits R0). Qed.

Definition pick_real (P : pred R) (_ : nat) : option R :=
  let a := epsilon R_inhabited (fun r => P r) in
  if P a then Some a else None.

Lemma pick_real_sound P n a : pick_real P n = Some a -> P a.
Proof. by rewrite /pick_real; case: ifP => // Pa [<-]. Qed.

Lemma pick_real_complete (P : pred R) :
  (exists a, P a) -> exists n, pick_real P n.
Proof.
move=> exP; exists 0%N; rewrite /pick_real.
by rewrite (epsilon_spec R_inhabited (fun r => P r) exP).
Qed.

Lemma pick_real_ext (P Q : pred R) : P =1 Q -> pick_real P =1 pick_real Q.
Proof.
move=> PQ n; have -> // : P = Q.
exact: functional_extensionality.
Qed.

HB.instance Definition _ :=
  hasChoice.Build R pick_real_sound pick_real_complete pick_real_ext.

Lemma RplusA : associative Rplus.
Proof. by move=> a b c; rewrite Rplus_assoc. Qed.

HB.instance Definition _ :=
  GRing.isZmodule.Build R RplusA Rplus_comm Rplus_0_l Rplus_opp_l.

Lemma RmultA : associative Rmult.
Proof. by move=> a b c; rewrite Rmult_assoc. Qed.

Lemma R1_neq0 : R1 != R0.
Proof. by apply/eqP; exact: R1_neq_R0. Qed.

HB.instance Definition _ :=
  GRing.Zmodule_isComNzRing.Build R RmultA Rmult_comm Rmult_1_l
    Rmult_plus_distr_r R1_neq0.

Lemma RinvM (a : R) : a != 0 -> Rinv a * a = 1.
Proof. by move=> /eqP a0; exact: Rinv_l. Qed.

HB.instance Definition _ := GRing.ComNzRing_isField.Build R RinvM Rinv_0.

(** ** Python exceptions and results *)

Inductive exn : Type :=
| IndexError    (* list index out of range *)
| ValueError    (* shapes not aligned, operands could not be broadcast *)
| LinAlgError.  (* numpy.linalg: not 2-D, not square, or singular *)

Inductive result (T : Type) : Type :=
| Ok (v : T)
| Raise (e : exn).

Arguments Ok {T} v.
Arguments Raise {T} e.

Definition bind {T U : Type} (r : result T) (k : T -> result U) : result U :=
  match r with
  | Ok v => k v
  | Raise e => Raise e
  end.

Notation "x <- r ;; k" := (bind r (fun x => k))
  (at level 100, r at next level, right associativity,
   format "'[v' x  <-  r  ;;  '/' k ']'").

Fixpoint mapM {T U : Type} (f : T -> result U) (s : seq T) : result (seq U) :=
  match s with
  | [::] => Ok [::]
  | a :: s' => b <- f a ;; bs <- mapM f s' ;; Ok (b :: bs)
  end.

(** [params[i]] on a Python list, for a non-negative literal index. *)
Definition getitem (s : seq R) (i : nat) : result R :=
  if (i < size s)%N then Ok (nth 0 s i) else Raise IndexError.

(** ** NumPy arrays of rank 0, 1 and 2 *)

Inductive ndarray : Type :=
| Arr0 (a : R)
| Arr1 (n : nat) (v : 'rV[R]_n)
| Arr2 (m n : nat) (M : 'M[R]_(m, n)).

Arguments Arr1 {n} v.
Arguments Arr2 {m n} M.

Definition ndim (a : ndarray) : nat :=
  match a with Arr0 _ => 0 | Arr1 _ _ => 1 | Arr2 _ _ _ => 2 end.

(** What the notebook passes where NumPy expects an array: a Python float
    or a Python list of floats. *)
Inductive points : Type :=
| Pt (u : R)
| Pts (s : seq R).

Definition vec (s : seq R) : 'rV[R]_(size s) := \row_j nth 0 s j.

Definition asarray (p : points) : ndarray :=
  match p with
  | Pt u => Arr0 u
  | Pts s => Arr1 (vec s)
  end.

(** Entry [(i, j)] of a matrix by natural-number index, [0] outside. *)
Definition get2 {m n : nat} (M : 'M[R]_(m, n)) (i j : nat) : R :=
  match insub i, insub j with
  | Some i', Some j' => M i' j'
  | _, _ => 0
  end.

(** [np.asarray] of a Python list of rank-0 results, as built by the list
    comprehension of [predict].  Entries of higher rank would give an array
    of rank three or a ragged array, which [ndarray] does not carry; they
    are reported as [ValueError]. *)
Definition item0 (a : ndarray) : result R :=
  match a with
  | Arr0 r => Ok r
  | _ => Raise ValueError
  end.

Definition asarray_list (l : seq ndarray) : result ndarray :=
  s <- mapM item0 l ;; Ok (Arr1 (vec s)).

(** Element-wise application of a scalar function (ufuncs such as
    [np.exp], [** 2], and multiplication by a Python scalar). *)
Definition amap (f : R -> R) (a : ndarray) : ndarray :=
  match a with
  | Arr0 r => Arr0 (f r)
  | Arr1 _ v => Arr1 (map_mx f v)
  | Arr2 _ _ M => Arr2 (map_mx f M)
  end.

(** [np.subtract.outer(x, y)]: the rank of the result is the sum of the
    ranks of the operands. *)
Definition subtract_outer (x y : points) : ndarray :=
  match x, y with
  | Pt u, Pt v => Arr0 (u - v)
  | Pt u, Pts t => Arr1 (\row_j (u - vec t 0 j))
  | Pts s, Pt v => Arr1 (\row_i (vec s 0 i - v))
  | Pts s, Pts t => Arr2 (\matrix_(i, j) (vec s 0 i - vec t 0 j))
  end.

(** [a.T] *)
Definition transpose (a : ndarray) : ndarray :=
  match a with
  | Arr2 _ _ M => Arr2 M^T
  | _ => a
  end.

(** [a.squeeze()]: axes of length one are removed. *)
Definition squeeze (a : ndarray) : ndarray :=
  match a with
  | Arr0 r => Arr0 r
  | Arr1 n v => if n == 1%N then Arr0 (get2 v 0 0) else Arr1 v
  | Arr2 m n M =>
      if (m == 1%N) && (n == 1%N) then Arr0 (get2 M 0 0)
      else if m == 1%N then Arr1 (\row_(j < n) get2 M 0 j)
      else if n == 1%N then Arr1 (\row_(i < m) get2 M i 0)
      else Arr2 M
  end.

(** Continue with a proof that two dimensions agree, or raise
    [ValueError] ("shapes not aligned"). *)
Definition aligned {T : Type} (n n' : nat) (k : n' = n -> result T) : result T :=
  match n' =P n with
  | ReflectT e => k e
  | ReflectF _ => Raise ValueError
  end.

(** [a.dot(b)] and [np.dot(a, b)] for ranks up to two. *)
Definition dot (a b : ndarray) : result ndarray :=
  match a, b with
  | Arr0 r, _ => Ok (amap (fun c => r * c) b)
  | _, Arr0 r => Ok (amap (fun c => c * r) a)
  | Arr1 n v, Arr1 n' w =>
      aligned (fun e : n' = n => Ok (Arr0 ((v *m (castmx (erefl, e) w)^T) 0 0)))
  | Arr1 n v, Arr2 n' p B =>
      aligned (fun e : n' = n => Ok (Arr1 (v *m castmx (e, erefl) B)))
  | Arr2 m n A, Arr1 n' w =>
      aligned (fun e : n' = n => Ok (Arr1 (A *m (castmx (erefl, e) w)^T)^T))
  | Arr2 m n A, Arr2 n' p B =>
      aligned (fun e : n' = n => Ok (Arr2 (A *m castmx (e, erefl) B)))
  end.

(** [np.linalg.inv(a)]: the inverse of a square, non-singular matrix of
    rank two; a 0x0 matrix is its own inverse.

    NumPy raises [LinAlgError] when the elimination meets a pivot that is
    exactly zero.  In exact arithmetic that happens exactly when the matrix
    is singular, which is the test made here.  In binary64 the two differ:
    a singular matrix whose pivots round to non-zero numbers is inverted
    without an error, and a matrix that is invertible over the reals can
    round to a singular one.  The singular covariance matrices met below
    have two equal rows or only zero entries, where the pivot is zero in
    binary64 as well; see [Binary64.inv] for the elimination itself. *)
Definition inv (a : ndarray) : result ndarray :=
  match a with
  | Arr2 m n M =>
      match n =P m with
      | ReflectT e =>
          let S : 'M[R]_m := castmx (erefl, e) M in
          if S \in unitmx then Ok (Arr2 (invmx S)) else Raise LinAlgError
      | ReflectF _ => Raise LinAlgError
      end
  | _ => Raise LinAlgError
  end.

(** Broadcasting of a binary ufunc.  Every operand is viewed as a matrix
    (a scalar as 1x1, a vector of length n as 1xn); an axis of length one
    is stretched to the length of the other operand's axis. *)
Record view : Type := View { vrows : nat; vcols : nat; vget : nat -> nat -> R }.

Definition view_of (a : ndarray) : view :=
  match a with
  | Arr0 r => View 1 1 (fun _ _ => r)
  | Arr1 n v => View 1 n (get2 v)
  | Arr2 m n M => View m n (get2 M)
  end.

Definition bdim (m m' : nat) : option nat :=
  if m == m' then Some m
  else if m == 1%N then Some m'
  else if m' == 1%N then Some m
  else None.

Definition bget (v : view) (i j : nat) : R :=
  vget v (if vrows v == 1%N then 0%N else i) (if vcols v == 1%N then 0%N else j).

Definition broadcast (f : R -> R -> R) (a b : ndarray) : result ndarray :=
  let va := view_of a in
  let vb := view_of b in
  match bdim (vrows va) (vrows vb), bdim (vcols va) (vcols vb) with
  | Some p, Some q =>
      let g i j := f (bget va i j) (bget vb i j) in
      Ok (match maxn (ndim a) (ndim b) with
          | 0%N => Arr0 (g 0%N 0%N)
          | 1%N => Arr1 (\row_(j < q) g 0%N j)
          | _ => Arr2 (\matrix_(i < p, j < q) g i j)
          end)
  | _, _ => Raise ValueError
  end.

(** [a - b] *)
Definition asub : ndarray -> ndarray -> result ndarray :=
  broadcast (fun r s => r - s).

(** ** The notebook's functions *)

(** [def exponential_cov(x, y, params):
       return params[0] * np.exp(-0.5 * params[1] * np.subtract.outer(x, y)**2)]

    Every operation is the exact one on reals, in the order of the source;
    [Binary64.exponential_cov] is the same expression with each operation
    rounded. *)
Definition exponential_cov (x y : points) (params : seq R) : result ndarray :=
  p0 <- getitem params 0 ;;
  p1 <- getitem params 1 ;;
  Ok (amap (fun e => p0 * e)
        (amap exp
           (amap (fun d2 => (-0.5)%Re * p1 * d2)
              (amap (fun d => d ^+ 2) (subtract_outer x y))))).

(** [def conditional(x_new, x, y, params):
       B = exponential_cov(x_new, x, params)
       C = exponential_cov(x, x, params)
       A = exponential_cov(x_new, x_new, params)
       mu = np.linalg.inv(C).dot(B.T).T.dot(y)
       sigma = A - B.dot(np.linalg.inv(C).dot(B.T))
       return(mu.squeeze(), sigma.squeeze())]

    The products and the difference are exact; the inversion is [inv]
    above, with its exact test for singularity. *)
Definition conditional (x_new x y : points) (params : seq R)
  : result (ndarray * ndarray) :=
  B <- exponential_cov x_new x params ;;
  C <- exponential_cov x x params ;;
  A <- exponential_cov x_new x_new params ;;
  Ci <- inv C ;;
  CiBt <- dot Ci (transpose B) ;;
  mu <- dot (transpose CiBt) (asarray y) ;;
  Ci' <- inv C ;;
  CiBt' <- dot Ci' (transpose B) ;;
  BCiBt <- dot B CiBt' ;;
  sigma <- asub A BCiBt ;;
  Ok (squeeze mu, squeeze sigma).

Definition kernel_fn : Type := points -> points -> seq R -> result ndarray.

(** [def predict(x, data, kernel, params, sigma, t):
       k = [kernel(x, y, params) for y in data]
       Sinv = np.linalg.inv(sigma)
       y_pred = np.dot(k, Sinv).dot(t)
       sigma_new = kernel(x, x, params) - np.dot(k, Sinv).dot(k)
       return y_pred, sigma_new]

    [x] is one query point (a float) and [data] a list of floats.  The
    products and the difference are exact, the inversion is [inv] above;
    [Binary64.predict] is the same sequence of calls with each operation
    rounded. *)
Definition predict (x : R) (data : seq R) (kernel : kernel_fn)
    (params : seq R) (sigma : ndarray) (t : points)
  : result (ndarray * ndarray) :=
  k <- mapM (fun y => kernel (Pt x) (Pt y) params) data ;;
  Sinv <- inv sigma ;;
  ka <- asarray_list k ;;
  kS <- dot ka Sinv ;;
  y_pred <- dot kS (asarray t) ;;
  kxx <- kernel (Pt x) (Pt x) params ;;
  ka' <- asarray_list k ;;
  kS' <- dot ka' Sinv ;;
  ka'' <- asarray_list k ;;
  q <- dot kS' ka'' ;;
  sigma_new <- asub kxx q ;;
  Ok (y_pred, sigma_new).

(** ** The prediction loop of the notebook *)

(** [predictions = [predict(i, x, exponential_cov, theta, sigma, y)
                    for i in x_pred]] *)
Definition predictions (x_pred x theta : seq R) (sigma : ndarray) (y : seq R)
  : result (seq (ndarray * ndarray)) :=
  mapM (fun i => predict i x exponential_cov theta sigma (Pts y)) x_pred.

(** [y_pred, sigmas = np.transpose(predictions)]: the list of pairs of
    scalars becomes an N x 2 array, its transpose is unpacked into its two
    rows.  An empty list transposes to an empty vector, which cannot be
    unpacked into two names. *)
Definition transpose_pairs (l : seq (ndarray * ndarray))
  : result (ndarray * ndarray) :=
  match l with
  | [::] => Raise ValueError
  | _ :: _ =>
      ms <- mapM item0 [seq p.1 | p <- l] ;;
      vs <- mapM item0 [seq p.2 | p <- l] ;;
      Ok (Arr1 (vec ms), Arr1 (vec vs))
  end.

(** ** The specification's vocabulary

    These definitions follow the words of the specification; the theorems
    below relate them to the functions above. *)

(** [kernel(u, v, theta) = theta_0 * exp(-theta_1/2 * (u - v)^2)] *)
Definition sqexp (theta : seq R) (u v : R) : R :=
  (nth 0 theta 0 * exp (- nth 0 theta 1 / 2 * (u - v) ^ 2))%Re.

(** The m x n matrix [K(a, b, theta)] with [K[i][j] = kernel(a[i], b[j], theta)]. *)
Definition cov_matrix (a b : seq R) (theta : seq R) : 'M[R]_(size a, size b) :=
  \matrix_(i, j) sqexp theta (nth 0 a i) (nth 0 b j).

(** [y] as a column of height [n]. *)
Definition col_of (n : nat) (y : seq R) : 'cV[R]_n := \col_i nth 0 y i.

(** [mu = B . C^-1 . y], for a candidate inverse [Ci] of [C = K(x, x, theta)]. *)
Definition posterior_mean (theta x_new x y : seq R) (Ci : 'M[R]_(size x))
  : 'cV[R]_(size x_new) :=
  cov_matrix x_new x theta *m Ci *m col_of (size x) y.

(** [Sigma = A - B . C^-1 . B^T] *)
Definition posterior_cov (theta x_new x : seq R) (Ci : 'M[R]_(size x))
  : 'M[R]_(size x_new) :=
  cov_matrix x_new x_new theta
  - cov_matrix x_new x theta *m Ci *m (cov_matrix x_new x theta)^T.

Arguments posterior_mean theta x_new x y Ci : clear implicits.
Arguments posterior_cov theta x_new x Ci : clear implicits.

(** The specification's error condition for hyperparameters: the arity is
    not two, or some entry is not positive. *)
Definition malformed (theta : seq R) : Prop :=
  size theta <> 2%N \/ exists2 i, (i < size theta)%N & (nth 0 theta i <= 0)%Re.

Definition raises (T : Type) (r : result T) : Prop := exists e, r = Raise e.

(** "The evaluator fails if and only if the hyperparameters are malformed." *)
Definition fails_iff_malformed (x y : points) (theta : seq R) : Prop :=
  raises (exponential_cov x y theta) <-> malformed theta.


(** The notebook's running example: [theta = [1, 10]], first observed
    point [x = [1.]]. *)
Definition nb_theta : seq R := [:: 1%Re; 10%Re].
Definition nb_x : seq R := [:: 1%Re].

(** The covariances of one point [u] with the points of [x]. *)
Definition kernel_row (theta : seq R) (u : R) (x : seq R) : 'rV[R]_(size x) :=
  \row_j sqexp theta u (nth 0 x j).

(** The kernel matrix and the kernel row of the first [N] values of a
    sequence of points given as a function of the index. *)
Definition gram (theta : seq R) (N : nat) (f : nat -> R) : 'M[R]_N :=
  \matrix_(i, j) sqexp theta (f i) (f j).

Definition gram_row (theta : seq R) (u : R) (N : nat) (f : nat -> R)
  : 'rV[R]_N :=
  \row_j sqexp theta u (f j).

(** ** The same functions over binary64

    Python floats are IEEE 754 binary64 numbers, and so are the primitive
    floats of Rocq: addition, subtraction, multiplication and division
    round to nearest, ties to even, as the processor does.  The functions
    below repeat the notebook's code with every operation rounded.

    Three things are pinned down less tightly than the arithmetic.
    - [np.exp] comes from a mathematical library that is accurate to about
      one unit in the last place but not specified bit for bit; [np_exp] is
      such an implementation (reduction by multiples of [ln 2], then the
      Taylor polynomial of degree 14).  It is exact where every library is:
      [np_exp 0 = 1], overflow to [infinity], underflow to [0].
    - LAPACK inverts through an LU factorisation with partial pivoting and
      raises when a pivot is exactly zero; [inv] is Gauss-Jordan elimination
      with the same pivoting and the same test.  For a 1x1 matrix [[a]]
      both perform the single division [1 / a]; for larger matrices the
      order of the operations, hence the last bits, may differ.
    - BLAS does not fix the order in which a dot product is summed; the
      sums here run from left to right.  With one observed point every sum
      has one term.
    The evaluations below that depend on rounded values use one observed
    point and stay away from the last bit of [np_exp]. *)

Module Binary64.

Local Open Scope float_scope.

(** [params[i]] *)
Definition getitem (s : seq float) (i : nat) : result float :=
  if (i < size s)%N then Ok (nth 0 s i) else Raise IndexError.

Definition log2e : float := 0x1.71547652b82fep+0.
Definition ln2_hi : float := 0x1.62e42fee00000p-1.
Definition ln2_lo : float := 0x1.a39ef35793c76p-33.
Definition o_threshold : float := 0x1.62e42fefa39efp+9.
Definition u_threshold : float := 0x1.74910d52d3051p+9.

(** Adding and subtracting [1.5 * 2^52] rounds to the nearest integer and
    leaves that integer in the low bits of the mantissa. *)
Definition shifter : float := 0x1.8p+52.
Definition shifter_mantissa : Z := Zpos 6755399441055744.

(** [1 + r/1 * (1 + r/2 * (... (1 + r/i * p)))] *)
Fixpoint taylor (i : nat) (r p : float) : float :=
  match i with
  | 0%N => p
  | j.+1 => taylor j r (1 + r / of_uint63 (Uint63.of_Z (Z.of_nat i)) * p)
  end.

(** [np.exp(x)] for one float: [x = n * ln 2 + r] with [|r| <= ln 2 / 2],
    and [exp x = 2^n * exp r]. *)
Definition np_exp (x : float) : float :=
  if is_nan x then x
  else if o_threshold <? x then infinity
  else if x <? - u_threshold then 0
  else
    let t := x * log2e + shifter in
    let n := t - shifter in
    let r := (x - n * ln2_hi) - n * ln2_lo in
    Z.ldexp (taylor 14 r 1)
      (Z.sub (Uint63.to_Z (normfr_mantissa (fst (frshiftexp t)))) shifter_mantissa).

(** [exponential_cov(x, y, params)] for two floats, as [predict] calls it:
    [params[0] * np.exp(-0.5 * params[1] * np.subtract.outer(x, y)**2)]. *)
Definition exponential_cov (x y : float) (params : seq float) : result float :=
  p0 <- getitem params 0 ;;
  p1 <- getitem params 1 ;;
  let d := x - y in
  Ok (p0 * np_exp ((-0.5) * p1 * (d * d))).


(** Matrices are lists of rows. *)
Definition entry (M : seq (seq float)) (i j : nat) : float :=
  nth 0 (nth [::] M i) j.

(** The row, from [c] downwards, whose entry in column [c] is largest in
    absolute value. *)
Definition pivot_row (M : seq (seq float)) (c : nat) : nat :=
  foldl (fun best r => if abs (entry M best c) <? abs (entry M r c) then r else best)
        c (iota c (size M - c)).

Definition swap_rows (M : seq (seq float)) (i j : nat) : seq (seq float) :=
  mkseq (fun r => nth [::] M (if r == i then j else if r == j then i else r))
        (size M).

(** Clear column [c] in every row but the pivot row [c]. *)
Definition eliminate (M : seq (seq float)) (c : nat) : seq (seq float) :=
  let p := nth [::] M c in
  mkseq (fun r =>
           let row := nth [::] M r in
           if r == c then row
           else
             let l := entry M r c / entry M c c in
             mkseq (fun j => if j == c then 0 else nth 0 row j - l * nth 0 p j)
                   (size row))
        (size M).

Fixpoint gauss_jordan (steps c : nat) (M : seq (seq float))
  : result (seq (seq float)) :=
  match steps with
  | 0%N => Ok M
  | s.+1 =>
      let M1 := swap_rows M c (pivot_row M c) in
      if entry M1 c c =? 0 then Raise LinAlgError
      else gauss_jordan s c.+1 (eliminate M1 c)
  end.

(** [np.linalg.inv(sigma)]: the matrix is extended by the identity, reduced,
    and each row divided by its pivot. *)
Definition inv (sigma : seq (seq float)) : result (seq (seq float)) :=
  let n := size sigma in
  if ~~ all (fun row => size row == n) sigma then Raise LinAlgError
  else
    let A := mkseq (fun i => nth [::] sigma i
                             ++ mkseq (fun j => if j == i then 1 else 0) n) n in
    M <- gauss_jordan n 0 A ;;
    Ok (mkseq (fun i => [seq a / entry M i i | a <- drop n (nth [::] M i)]) n).

Definition sum_products (ps : seq (float * float)) : float :=
  match ps with
  | [::] => 0
  | a :: ps' => foldl (fun acc b => acc + b.1 * b.2) (a.1 * a.2) ps'
  end.

(** [np.dot(v, w)] for two vectors *)
Definition vecvec (v w : seq float) : result float :=
  if size v != size w then Raise ValueError
  else Ok (sum_products (zip v w)).

(** [np.dot(v, M)] for a vector and a matrix *)
Definition vecmat (v : seq float) (M : seq (seq float)) : result (seq float) :=
  if size v != size M then Raise ValueError
  else Ok (mkseq (fun j => sum_products (zip v [seq nth 0 row j | row <- M]))
                 (size (nth [::] M 0))).

(** [def predict(x, data, kernel, params, sigma, t):
       k = [kernel(x, y, params) for y in data]
       Sinv = np.linalg.inv(sigma)
       y_pred = np.dot(k, Sinv).dot(t)
       sigma_new = kernel(x, x, params) - np.dot(k, Sinv).dot(k)
       return y_pred, sigma_new] *)
Definition predict (x : float) (data : seq float)
    (kernel : float -> float -> seq float -> result float)
    (params : seq float) (sigma : seq (seq float)) (t : seq float)
  : result (float * float) :=
  k <- mapM (fun y => kernel x y params) data ;;
  Sinv <- inv sigma ;;
  kS <- vecmat k Sinv ;;
  y_pred <- vecvec kS t ;;
  kxx <- kernel x x params ;;
  kS' <- vecmat k Sinv ;;
  q <- vecvec kS' k ;;
  Ok (y_pred, kxx - q).

(** The notebook's running example, [theta = [1, 10]] and [x = [1.]]. *)
Definition nb_theta : seq float := [:: 1; 10].
Definition nb_x : seq float := [:: 1].

End Binary64.

(** ** Tactics *)

(** Stdlib's linear arithmetic applies once MathComp's ring operations on
    [R] are unfolded to [Rplus], [Rmult], ... *)
Ltac unring :=
  rewrite /GRing.exp /GRing.mul /GRing.add /GRing.opp /GRing.inv
          /GRing.one /GRing.zero /=.

(** ** Basic facts about the array operations *)

Section ArrayFacts.

Lemma bind_ok (T U : Type) (v : T) (k : T -> result U) : bind (Ok v) k = k v.
Proof. by []. Qed.

Lemma getitem_ok (s : seq R) (i : nat) :
  (i < size s)%N -> getitem s i = Ok (nth 0 s i).
Proof. by rewrite /getitem => ->. Qed.

Lemma get2_ord (m n : nat) (M : 'M[R]_(m, n)) (i : 'I_m) (j : 'I_n) :
  get2 M i j = M i j.
Proof. by rewrite /get2 !valK. Qed.

Lemma aligned_eq (T : Type) (n n' : nat) (k : n' = n -> result T) (e : n' = n) :
  aligned k = k e.
Proof.
rewrite /aligned; case: eqP => [e'|//].
by rewrite (eq_irrelevance e' e).
Qed.

Lemma aligned_neq (T : Type) (n n' : nat) (k : n' = n -> result T) :
  n' != n -> aligned k = Raise ValueError.
Proof. by rewrite /aligned; case: eqP. Qed.

Lemma cast_vec (n : nat) (y : seq R) (e : size y = n) :
  (castmx (erefl, e) (vec y))^T = col_of n y.
Proof.
case: n / e; rewrite castmx_id.
by apply/colP => i; rewrite !mxE.
Qed.

Lemma dot22 (m n p : nat) (A : 'M[R]_(m, n)) (B : 'M[R]_(n, p)) :
  dot (Arr2 A) (Arr2 B) = Ok (Arr2 (A *m B)).
Proof. by rewrite /dot (aligned_eq _ erefl) castmx_id. Qed.

Lemma dot21 (m n : nat) (A : 'M[R]_(m, n)) (y : seq R) :
  size y = n -> dot (Arr2 A) (Arr1 (vec y)) = Ok (Arr1 (A *m col_of n y)^T).
Proof. by move=> e; rewrite /dot (aligned_eq _ e) cast_vec. Qed.

Lemma dot11 (n : nat) (v : 'rV[R]_n) (y : seq R) :
  size y = n -> dot (Arr1 v) (Arr1 (vec y)) = Ok (Arr0 ((v *m col_of n y) 0 0)).
Proof. by move=> e; rewrite /dot (aligned_eq _ e) cast_vec. Qed.

Lemma inv_unit (n : nat) (M : 'M[R]_n) :
  M \in unitmx -> inv (Arr2 M) = Ok (Arr2 (invmx M)).
Proof.
move=> uM; rewrite /inv; case: eqP => // e.
by rewrite (eq_irrelevance e erefl) castmx_id uM.
Qed.

Lemma inv_singular (n : nat) (M : 'M[R]_n) :
  M \notin unitmx -> inv (Arr2 M) = Raise LinAlgError.
Proof.
move=> /negbTE uM; rewrite /inv; case: eqP => // e.
by rewrite (eq_irrelevance e erefl) castmx_id uM.
Qed.

Lemma bdim_same (m : nat) : bdim m m = Some m.
Proof. by rewrite /bdim eqxx. Qed.

Lemma asub00 (r s : R) : asub (Arr0 r) (Arr0 s) = Ok (Arr0 (r - s)).
Proof. by []. Qed.

Lemma asub22 (m n : nat) (A B : 'M[R]_(m, n)) :
  asub (Arr2 A) (Arr2 B) = Ok (Arr2 (A - B)).
Proof.
rewrite /asub /broadcast /= !bdim_same; congr (Ok (Arr2 _)).
apply/matrixP => i j; rewrite !mxE /bget /=.
have row0 : (if m == 1%N then 0%N else i) = i :> nat.
  by case: eqP => // m1; case: i => -[|i] //=; rewrite m1.
have col0 : (if n == 1%N then 0%N else j) = j :> nat.
  by case: eqP => // n1; case: j => -[|j] //=; rewrite n1.
by rewrite row0 col0 !get2_ord.
Qed.

Lemma squeeze_row1 (v : 'rV[R]_1) : squeeze (Arr1 v) = Arr0 (v 0 0).
Proof. by rewrite /= -(get2_ord v 0 0). Qed.

Lemma squeeze_mx11 (M : 'M[R]_1) : squeeze (Arr2 M) = Arr0 (M 0 0).
Proof. by rewrite /= -(get2_ord M 0 0). Qed.

End ArrayFacts.

(** ** The covariance evaluator *)

Section CovarianceEvaluator.

Implicit Types (theta : seq R) (x y : points) (a b : seq R).

Lemma sqexp_ring theta (d : R) :
  nth 0 theta 0 * exp ((-0.5)%Re * nth 0 theta 1 * d ^+ 2)
  = (nth 0 theta 0 * exp (- nth 0 theta 1 / 2 * d ^ 2))%Re.
Proof. by unring; congr (_ * exp _)%Re; Lra.lra. Qed.

(** With at least two hyperparameters the evaluator applies the kernel to
    every entry of the outer difference. *)
Lemma exponential_cov_ok theta x y :
  (1 < size theta)%N ->
  exponential_cov x y theta
  = Ok (amap (fun d => (nth 0 theta 0 * exp (- nth 0 theta 1 / 2 * d ^ 2))%Re)
          (subtract_outer x y)).
Proof.
move=> sz; have sz0 : (0 < size theta)%N by exact: ltn_trans sz.
rewrite /exponential_cov !getitem_ok // !bind_ok.
congr Ok; case: (subtract_outer x y) => [r|n v|m n M]; rewrite /amap.
- by rewrite sqexp_ring.
- by congr Arr1; apply/rowP => j; rewrite !mxE sqexp_ring.
- by congr Arr2; apply/matrixP => i j; rewrite !mxE sqexp_ring.
Qed.

Lemma exponential_cov_short theta x y :
  (size theta < 2)%N -> exponential_cov x y theta = Raise IndexError.
Proof.
rewrite /exponential_cov /getitem.
by case: theta => [|p0 [|p1 theta]].
Qed.

Lemma exponential_cov_scalars theta (u v : R) :
  (1 < size theta)%N ->
  exponential_cov (Pt u) (Pt v) theta = Ok (Arr0 (sqexp theta u v)).
Proof. by move=> sz; rewrite exponential_cov_ok. Qed.

Lemma exponential_cov_lists theta a b :
  (1 < size theta)%N ->
  exponential_cov (Pts a) (Pts b) theta = Ok (Arr2 (cov_matrix a b theta)).
Proof.
move=> sz; rewrite exponential_cov_ok //=; congr (Ok (Arr2 _)).
by apply/matrixP => i j; rewrite !mxE.
Qed.

Lemma sqexp_sym theta (u v : R) : sqexp theta u v = sqexp theta v u.
Proof. by rewrite /sqexp; congr (_ * exp _)%Re; Lra.lra. Qed.

Lemma sqexp_diag theta (u : R) : sqexp theta u u = nth 0 theta 0.
Proof.
rewrite /sqexp.
have -> : (- nth 0 theta 1 / 2 * (u - u) ^ 2)%Re = 0%Re by Lra.lra.
by rewrite exp_0 Rmult_1_r.
Qed.

Lemma cov_matrix_sym theta a : (cov_matrix a a theta)^T = cov_matrix a a theta.
Proof. by apply/matrixP => i j; rewrite !mxE sqexp_sym. Qed.

End CovarianceEvaluator.

(** ** The conditioner and the predictor, evaluated *)

Section Conditioning.

Implicit Types (theta : seq R) (x_new x y data t : seq R).

Lemma row_of_vec (n : nat) (s : seq R) (e : size s = n) :
  castmx (erefl, e) (vec s) = (col_of n s)^T.
Proof. by rewrite -(cast_vec e) trmxK. Qed.

Lemma dot12_list (n p : nat) (s : seq R) (B : 'M[R]_(n, p)) :
  size s = n -> dot (Arr1 (vec s)) (Arr2 B) = Ok (Arr1 ((col_of n s)^T *m B)).
Proof.
move=> e; rewrite /dot (aligned_eq _ (esym e)); congr (Ok (Arr1 _)).
by case: n / e B => B; rewrite castmx_id -(row_of_vec erefl) castmx_id.
Qed.

(** [conditional] on lists, when the observed covariance is invertible and
    the outputs are as many as the observed points. *)
Lemma conditional_eval theta x_new x y :
  (1 < size theta)%N -> size y = size x ->
  cov_matrix x x theta \in unitmx ->
  let A := cov_matrix x_new x_new theta in
  let B := cov_matrix x_new x theta in
  let Ci := invmx (cov_matrix x x theta) in
  conditional (Pts x_new) (Pts x) (Pts y) theta
  = Ok (squeeze (Arr1 ((Ci *m B^T)^T *m col_of (size x) y)^T),
        squeeze (Arr2 (A - B *m (Ci *m B^T)))).
Proof.
move=> sz sy uC A B Ci.
rewrite /conditional !exponential_cov_lists // !bind_ok.
rewrite inv_unit // !bind_ok /transpose dot22 !bind_ok.
rewrite [asarray _]/= dot21 // !bind_ok.
by rewrite dot22 bind_ok dot22 bind_ok asub22 bind_ok.
Qed.

Lemma mapM_kernel theta (u : R) data :
  (1 < size theta)%N ->
  mapM (fun v => exponential_cov (Pt u) (Pt v) theta) data
  = Ok [seq Arr0 (sqexp theta u v) | v <- data].
Proof.
move=> sz; elim: data => [//|v data IH] /=.
by rewrite exponential_cov_scalars // IH.
Qed.

Lemma asarray_list_scalars (s : seq R) :
  asarray_list [seq Arr0 r | r <- s] = Ok (Arr1 (vec s)).
Proof.
rewrite /asarray_list; suff -> : mapM item0 [seq Arr0 r | r <- s] = Ok s by [].
by elim: s => [//|r s IH] /=; rewrite IH.
Qed.

Lemma col_of_kernel theta (u : R) data :
  col_of (size data) [seq sqexp theta u v | v <- data]
  = (cov_matrix [:: u] data theta)^T.
Proof.
by apply/colP => j; rewrite !mxE (nth_map 0).
Qed.

(** [predict] with the notebook's kernel, when [sigma] is invertible. *)
Lemma predict_eval theta (u : R) data t (S : 'M[R]_(size data)) :
  (1 < size theta)%N -> size t = size data -> S \in unitmx ->
  let k : 'rV[R]_(size data) := cov_matrix [:: u] data theta in
  predict u data exponential_cov theta (Arr2 S) (Pts t)
  = Ok (Arr0 ((k *m invmx S *m col_of (size data) t) 0 0),
        Arr0 (sqexp theta u u - (k *m invmx S *m k^T) 0 0)).
Proof.
move=> sz st uS k.
rewrite /predict mapM_kernel // bind_ok inv_unit // bind_ok.
rewrite (map_comp Arr0) asarray_list_scalars !bind_ok.
rewrite dot12_list ?size_map // bind_ok col_of_kernel trmxK.
rewrite [asarray _]/= dot11 // bind_ok exponential_cov_scalars // !bind_ok.
rewrite dot12_list ?size_map // !bind_ok col_of_kernel trmxK.
by rewrite dot11 ?size_map // bind_ok asub00 bind_ok col_of_kernel.
Qed.

End Conditioning.

Section Posterior.

Implicit Types (theta : seq R) (x_new x y : seq R).

Lemma right_inverse_invmx (n : nat) (C Ci : 'M[R]_n) :
  C *m Ci = 1%:M -> C \in unitmx /\ invmx C = Ci.
Proof.
move=> CCi; have [uC _] := mulmx1_unit CCi; split=> //.
by rewrite -[invmx C]mulmx1 -CCi mulKmx.
Qed.

Lemma invmx_cov_sym theta x :
  (invmx (cov_matrix x x theta))^T = invmx (cov_matrix x x theta).
Proof. by rewrite trmx_inv cov_matrix_sym. Qed.

Lemma conditional_moments theta x_new x y :
  (1 < size theta)%N -> size y = size x ->
  cov_matrix x x theta \in unitmx ->
  let Ci := invmx (cov_matrix x x theta) in
  conditional (Pts x_new) (Pts x) (Pts y) theta
  = Ok (squeeze (Arr1 (posterior_mean theta x_new x y Ci)^T),
        squeeze (Arr2 (posterior_cov theta x_new x Ci))).
Proof.
move=> sz sy uC Ci; rewrite conditional_eval // /Ci.
by rewrite /posterior_mean /posterior_cov !trmx_mul !trmxK invmx_cov_sym !mulmxA.
Qed.

Lemma conditional_moments1 theta (xs : R) x y :
  (1 < size theta)%N -> size y = size x ->
  cov_matrix x x theta \in unitmx ->
  let Ci := invmx (cov_matrix x x theta) in
  conditional (Pts [:: xs]) (Pts x) (Pts y) theta
  = Ok (Arr0 (posterior_mean theta [:: xs] x y Ci 0 0),
        Arr0 (posterior_cov theta [:: xs] x Ci 0 0)).
Proof.
move=> sz sy uC Ci; rewrite conditional_moments //.
by rewrite squeeze_row1 squeeze_mx11 mxE.
Qed.

Lemma cov_matrix11 theta (u v : R) :
  cov_matrix [:: u] [:: v] theta = (sqexp theta u v)%:M.
Proof.
by apply/matrixP => i j; rewrite !mxE !ord1.
Qed.

End Posterior.

Section Scenarios.

Implicit Types (theta : seq R).

Lemma unitmx_empty (M : 'M[R]_0) : M \in unitmx.
Proof. by rewrite unitmxE det_mx00 unitr1. Qed.

(** The mean is a product through an axis of length zero. *)
Lemma posterior_mean_empty theta x_new (Ci : 'M[R]_(size (Nil R))) :
  posterior_mean theta x_new [::] [::] Ci = 0.
Proof. by rewrite /posterior_mean [col_of _ _]flatmx0 mulmx0. Qed.

Lemma posterior_cov_empty theta x_new (Ci : 'M[R]_(size (Nil R))) :
  posterior_cov theta x_new [::] Ci = cov_matrix x_new x_new theta.
Proof.
by rewrite /posterior_cov [(cov_matrix x_new [::] theta)^T]flatmx0 mulmx0 subr0.
Qed.

End Scenarios.

(** ** The squared-exponential covariance is positive semi-definite *)

Section PositiveSemiDefinite.

Variable n : nat.
Implicit Types (u : 'rV[R]_n) (f g : 'I_n -> 'I_n -> R).













End PositiveSemiDefinite.

Section GaussianKernel.

Implicit Types (theta data : seq R).




End GaussianKernel.

Section Shrinking.

Variables (theta : seq R) (xs : R) (data : seq R).
Variable i0 : 'I_(size data).

Let C : 'M[R]_(size data) := cov_matrix data data theta.
Let k : 'rV[R]_(size data) := cov_matrix [:: xs] data theta.
Let e0 : R := exp (- nth 0 theta 1 / 2 * (xs - nth 0 data i0) ^ 2)%Re.

Hypothesis uC : C \in unitmx.
Hypothesis theta0_pos : (0 < nth 0 theta 0)%Re.
Hypothesis theta1_ge0 : (0 <= nth 0 theta 1)%Re.


Let w : 'rV[R]_(size data) := k *m invmx C.
Let e : 'rV[R]_(size data) := delta_mx 0 i0.









End Shrinking.


(** ** Failure modes the notebook leaves unguarded *)

Section Failures.

Implicit Types (theta x_new x y : seq R).

Lemma cov_matrix_unit1 theta (x0 : R) :
  nth 0 theta 0 != 0 -> cov_matrix [:: x0] [:: x0] theta \in unitmx.
Proof.
by move=> t0; rewrite cov_matrix11 sqexp_diag unitmxE det_scalar1 unitfE.
Qed.

(** Two observed points at the same location make [C] singular. *)
Lemma cov_matrix_duplicate theta x (i1 i2 : 'I_(size x)) :
  i1 != i2 -> nth 0 x i1 = nth 0 x i2 -> cov_matrix x x theta \notin unitmx.
Proof.
move=> ne12 same; rewrite unitmxE unitfE negbK.
by rewrite (determinant_alternate ne12) // => j; rewrite !mxE same.
Qed.

Lemma conditional_singular theta x_new x y :
  (1 < size theta)%N -> cov_matrix x x theta \notin unitmx ->
  conditional (Pts x_new) (Pts x) (Pts y) theta = Raise LinAlgError.
Proof.
move=> sz sC; rewrite /conditional !exponential_cov_lists // !bind_ok.
by rewrite inv_singular.
Qed.

Lemma conditional_misaligned theta x_new x y :
  (1 < size theta)%N -> cov_matrix x x theta \in unitmx ->
  size y != size x ->
  conditional (Pts x_new) (Pts x) (Pts y) theta = Raise ValueError.
Proof.
move=> sz uC ne; rewrite /conditional !exponential_cov_lists // !bind_ok.
rewrite inv_unit // !bind_ok /transpose dot22 !bind_ok.
by rewrite [asarray _]/= /dot aligned_neq.
Qed.

Lemma conditional_short_params theta (x_new x y : points) :
  (size theta < 2)%N -> conditional x_new x y theta = Raise IndexError.
Proof. by move=> sz; rewrite /conditional exponential_cov_short. Qed.

End Failures.

(** ** The notebook's running example *)

Section NotebookExample.

Lemma nb_theta_size : (1 < size nb_theta)%N.
Proof. by []. Qed.

Lemma nb_cov_one : cov_matrix nb_x nb_x nb_theta = 1%:M.
Proof. by rewrite cov_matrix11 sqexp_diag. Qed.

Lemma nb_cov_unit : cov_matrix nb_x nb_x nb_theta \in unitmx.
Proof. by rewrite nb_cov_one unitmx1. Qed.

Lemma nb_cov_inverse : cov_matrix nb_x nb_x nb_theta *m 1%:M = 1%:M.
Proof. by rewrite nb_cov_one mulmx1. Qed.

Example nb_prior_variance :
  exponential_cov (Pt 0%Re) (Pt 0%Re) nb_theta = Ok (Arr0 1%Re).
Proof. by rewrite exponential_cov_scalars // sqexp_diag. Qed.

Example nb_one_hyperparameter :
  exponential_cov (Pt 0%Re) (Pt 0%Re) [:: 1%Re] = Raise IndexError.
Proof. by []. Qed.

Example nb_three_hyperparameters :
  exponential_cov (Pt 0%Re) (Pt 0%Re) [:: 1%Re; 10%Re; 5%Re] = Ok (Arr0 1%Re).
Proof. by rewrite exponential_cov_scalars // sqexp_diag. Qed.

Example nb_duplicate_points (y0 y1 : R) :
  conditional (Pts [:: 0%Re]) (Pts [:: 1%Re; 1%Re]) (Pts [:: y0; y1]) nb_theta
  = Raise LinAlgError.
Proof.
apply: conditional_singular => //.
by apply: (@cov_matrix_duplicate _ [:: 1%Re; 1%Re] ord0 (lift ord0 ord0)).
Qed.

Example nb_missing_output :
  conditional (Pts [:: 0%Re]) (Pts nb_x) (Pts [::]) nb_theta = Raise ValueError.
Proof. by apply: conditional_misaligned => //; exact: nb_cov_unit. Qed.

End NotebookExample.

(** ** [predict] and [conditional] on one query point *)

Section Agreement.

Implicit Types (theta x y : seq R).

Lemma predict_matches_conditional theta (xs : R) x y :
  (1 < size theta)%N -> size y = size x ->
  cov_matrix x x theta \in unitmx ->
  predict xs x exponential_cov theta (Arr2 (cov_matrix x x theta)) (Pts y)
  = conditional (Pts [:: xs]) (Pts x) (Pts y) theta.
Proof.
move=> sz sy uC; rewrite predict_eval // conditional_moments1 //.
by rewrite /posterior_mean /posterior_cov !mxE.
Qed.

End Agreement.

(** ** Where rounding decides

    The notebook's first state, evaluated in binary64. *)

Section Rounding.

Local Open Scope float_scope.

(** The prior variance and the variance at the observed point are exact. *)
Example binary64_prior_variance :
  Binary64.exponential_cov 0 0 Binary64.nb_theta = Ok 1.
Proof. by vm_compute. Qed.

Example binary64_coinciding_point :
  Binary64.predict 1 Binary64.nb_x Binary64.exponential_cov Binary64.nb_theta
    [:: [:: 1]] [:: 0.5]
  = Ok (0.5, 0).
Proof. by vm_compute. Qed.

(** The covariance of two distant points underflows to zero. *)
Example binary64_kernel_underflow :
  Binary64.exponential_cov 0 100 Binary64.nb_theta = Ok 0.
Proof. by vm_compute. Qed.

(** Far from the observed point nothing is learnt: the exponential
    underflows, and the variance is the prior variance. *)
Example binary64_far_query :
  Binary64.predict 100 Binary64.nb_x Binary64.exponential_cov Binary64.nb_theta
    [:: [:: 1]] [:: 0.5]
  = Ok (0, 1).
Proof. by vm_compute. Qed.

(** Two equal rows give a zero pivot, in binary64 as over the reals. *)
Example binary64_duplicate_points :
  Binary64.predict 0 [:: 1; 1] Binary64.exponential_cov Binary64.nb_theta
    [:: [:: 1; 1]; [:: 1; 1]] [:: 0.5; 0.25]
  = Raise LinAlgError.
Proof. by vm_compute. Qed.

End Rounding.

(** * The claims *)

(** C1.  Whenever [Ci] is an inverse of [C = K(x, x, theta)] and [y] has as
    many entries as [x], [conditional(x_new, x, y, theta)] returns
    [mu = B . Ci . y] and [Sigma = A - B . Ci . B^T] with
    [B = K(x_new, x, theta)] and [A = K(x_new, x_new, theta)], squeezed;
    for a single query point both components are scalars. *)
Theorem conditional_posterior (theta x_new x y : seq R) (Ci : 'M[R]_(size x)) :
  (1 < size theta)%N -> size y = size x ->
  cov_matrix x x theta *m Ci = 1%:M ->
  conditional (Pts x_new) (Pts x) (Pts y) theta
  = Ok (squeeze (Arr1 (posterior_mean theta x_new x y Ci)^T),
        squeeze (Arr2 (posterior_cov theta x_new x Ci)))
  /\ forall xs : R,
       conditional (Pts [:: xs]) (Pts x) (Pts y) theta
       = Ok (Arr0 (posterior_mean theta [:: xs] x y Ci 0 0),
             Arr0 (posterior_cov theta [:: xs] x Ci 0 0)).
Proof.
move=> sz sy /right_inverse_invmx [uC <-]; split=> [|xs].
- exact: conditional_moments.
- exact: conditional_moments1.
Qed.

Lemma conditional_posterior_witness :
  (1 < size nb_theta)%N
  /\ size [:: 0.5%Re] = size nb_x
  /\ cov_matrix nb_x nb_x nb_theta *m 1%:M = 1%:M
  /\ (conditional (Pts [:: (-0.7)%Re; 1%Re]) (Pts nb_x) (Pts [:: 0.5%Re]) nb_theta
      = Ok (squeeze (Arr1 (posterior_mean nb_theta [:: (-0.7)%Re; 1%Re] nb_x
                             [:: 0.5%Re] 1%:M)^T),
            squeeze (Arr2 (posterior_cov nb_theta [:: (-0.7)%Re; 1%Re] nb_x
                             1%:M)))
      /\ forall xs : R,
           conditional (Pts [:: xs]) (Pts nb_x) (Pts [:: 0.5%Re]) nb_theta
           = Ok (Arr0 (posterior_mean nb_theta [:: xs] nb_x [:: 0.5%Re] 1%:M 0 0),
                 Arr0 (posterior_cov nb_theta [:: xs] nb_x 1%:M 0 0))).
Proof.
split; [reflexivity | split; [reflexivity | split; [exact nb_cov_inverse |]]].
apply conditional_posterior; [reflexivity | reflexivity | exact nb_cov_inverse].
Defined.

(** C2.  For point sequences [a] (length m) and [b] (length n) and a
    hyperparameter vector with its two entries, [exponential_cov(a, b, theta)]
    returns the m x n matrix [K] with
    [K[i][j] = theta_0 * exp(-theta_1/2 * (a[i] - b[j])^2)]; [a] and [b]
    may be the same sequence, and m = n = 1 gives a 1x1 matrix. *)
Theorem exponential_cov_entries (theta a b : seq R) :
  (1 < size theta)%N ->
  exists K : 'M[R]_(size a, size b),
    exponential_cov (Pts a) (Pts b) theta = Ok (Arr2 K)
    /\ forall (i : 'I_(size a)) (j : 'I_(size b)),
         K i j = (nth 0 theta 0
                  * exp (- nth 0 theta 1 / 2 * (nth 0 a i - nth 0 b j) ^ 2))%Re.
Proof.
move=> sz; exists (cov_matrix a b theta); split; first exact: exponential_cov_lists.
by move=> i j; rewrite mxE.
Qed.

Lemma exponential_cov_entries_witness :
  (1 < size nb_theta)%N
  /\ exists K : 'M[R]_(size nb_x, size nb_x),
       exponential_cov (Pts nb_x) (Pts nb_x) nb_theta = Ok (Arr2 K)
       /\ forall (i : 'I_(size nb_x)) (j : 'I_(size nb_x)),
            K i j = (nth 0 nb_theta 0
                     * exp (- nth 0 nb_theta 1 / 2
                            * (nth 0 nb_x i - nth 0 nb_x j) ^ 2))%Re.
Proof.
split; [reflexivity | apply exponential_cov_entries; reflexivity].
Defined.

(** C3.  For one query point [xs], observed points [x] with as many outputs
    [y], and hyperparameters for which [K(x, x, theta)] is invertible,
    [predict(xs, x, exponential_cov, theta, K(x, x, theta), y)] and
    [conditional([xs], x, y, theta)] return the same mean and the same
    variance. *)
Theorem predict_conditional_agree (theta : seq R) (xs : R) (x y : seq R)
    (sigma : ndarray) :
  (1 < size theta)%N -> size y = size x ->
  cov_matrix x x theta \in unitmx ->
  exponential_cov (Pts x) (Pts x) theta = Ok sigma ->
  exists m v : R,
    predict xs x exponential_cov theta sigma (Pts y) = Ok (Arr0 m, Arr0 v)
    /\ conditional (Pts [:: xs]) (Pts x) (Pts y) theta = Ok (Arr0 m, Arr0 v).
Proof.
move=> sz sy uC; rewrite exponential_cov_lists // => -[<-].
rewrite predict_matches_conditional // conditional_moments1 //.
by eexists; eexists.
Qed.

Lemma predict_conditional_agree_witness :
  (1 < size nb_theta)%N
  /\ size [:: 0.5%Re] = size nb_x
  /\ cov_matrix nb_x nb_x nb_theta \in unitmx
  /\ exponential_cov (Pts nb_x) (Pts nb_x) nb_theta
     = Ok (Arr2 (cov_matrix nb_x nb_x nb_theta))
  /\ exists m v : R,
       predict (-0.7)%Re nb_x exponential_cov nb_theta
         (Arr2 (cov_matrix nb_x nb_x nb_theta)) (Pts [:: 0.5%Re])
       = Ok (Arr0 m, Arr0 v)
       /\ conditional (Pts [:: (-0.7)%Re]) (Pts nb_x) (Pts [:: 0.5%Re]) nb_theta
          = Ok (Arr0 m, Arr0 v).
Proof.
split; [reflexivity | split; [reflexivity | split; [exact nb_cov_unit |]]].
split; [exact (exponential_cov_lists nb_x nb_x nb_theta_size) |].
apply predict_conditional_agree;
  [ reflexivity | reflexivity | exact nb_cov_unit
  | exact (exponential_cov_lists nb_x nb_x nb_theta_size) ].
Defined.

(** C4.  With no observed points and no observed outputs, [conditional]
    returns the zero mean (the zero vector, or the scalar zero for a single
    query point) and the prior covariance [K(x_new, x_new, theta)]. *)
Theorem conditional_no_observations (theta x_new : seq R) :
  (1 < size theta)%N ->
  conditional (Pts x_new) (Pts [::]) (Pts [::]) theta
  = Ok (squeeze (Arr1 (0 : 'rV[R]_(size x_new))),
        squeeze (Arr2 (cov_matrix x_new x_new theta)))
  /\ forall xs : R,
       conditional (Pts [:: xs]) (Pts [::]) (Pts [::]) theta
       = Ok (Arr0 0, Arr0 (sqexp theta xs xs)).
Proof.
move=> sz; split=> [|xs].
- rewrite conditional_moments ?unitmx_empty //.
  by rewrite posterior_mean_empty posterior_cov_empty trmx0.
- rewrite conditional_moments1 ?unitmx_empty //.
  by rewrite posterior_mean_empty posterior_cov_empty !mxE.
Qed.

Lemma conditional_no_observations_witness :
  (1 < size nb_theta)%N
  /\ (conditional (Pts [:: (-0.7)%Re; 1%Re]) (Pts [::]) (Pts [::]) nb_theta
      = Ok (squeeze (Arr1 (0 : 'rV[R]_(size [:: (-0.7)%Re; 1%Re]))),
            squeeze (Arr2 (cov_matrix [:: (-0.7)%Re; 1%Re]
                             [:: (-0.7)%Re; 1%Re] nb_theta)))
      /\ forall xs : R,
           conditional (Pts [:: xs]) (Pts [::]) (Pts [::]) nb_theta
           = Ok (Arr0 0, Arr0 (sqexp nb_theta xs xs))).
Proof.
split; [reflexivity | apply conditional_no_observations; reflexivity].
Defined.

(** C5.  With [theta = [1, 10]], [exponential_cov(0, 0, theta)] is 1, and
    for every [y0], [conditional([1.0], [1.0], [y0], theta)] returns the
    mean [y0] and the variance 0. *)
Theorem scenario_coinciding_point :
  exponential_cov (Pt 0%Re) (Pt 0%Re) [:: 1%Re; 10%Re] = Ok (Arr0 1%Re)
  /\ forall y0 : R,
       conditional (Pts [:: 1%Re]) (Pts [:: 1%Re]) (Pts [:: y0])
                   [:: 1%Re; 10%Re]
       = Ok (Arr0 y0, Arr0 0%Re).
Proof.
split=> [|y0]; first exact: nb_prior_variance.
have C1 : cov_matrix [:: 1%Re] [:: 1%Re] [:: 1%Re; 10%Re] = 1%:M := nb_cov_one.
have uC : cov_matrix [:: 1%Re] [:: 1%Re] [:: 1%Re; 10%Re] \in unitmx.
  by rewrite C1 unitmx1.
rewrite conditional_moments1 // /posterior_mean /posterior_cov C1 invmx1.
by rewrite trmx1 !mulmx1 mul1mx subrr; congr (Ok (Arr0 _, Arr0 _)); rewrite !mxE.
Qed.




(** C7.  For every point sequence [P] and hyperparameter vector with its
    two entries, [K = exponential_cov(P, P, theta)] is symmetric:
    [K[i][j] = K[j][i]] for all indices within bounds. *)
Theorem exponential_cov_symmetric (theta P : seq R) :
  (1 < size theta)%N ->
  exists K : 'M[R]_(size P),
    exponential_cov (Pts P) (Pts P) theta = Ok (Arr2 K)
    /\ forall i j : 'I_(size P), K i j = K j i.
Proof.
move=> sz; exists (cov_matrix P P theta); split; first exact: exponential_cov_lists.
by move=> i j; rewrite !mxE sqexp_sym.
Qed.

Lemma exponential_cov_symmetric_witness :
  (1 < size nb_theta)%N
  /\ exists K : 'M[R]_(size [:: (-0.7)%Re; 1%Re]),
       exponential_cov (Pts [:: (-0.7)%Re; 1%Re]) (Pts [:: (-0.7)%Re; 1%Re])
         nb_theta = Ok (Arr2 K)
       /\ forall i j : 'I_(size [:: (-0.7)%Re; 1%Re]), K i j = K j i.
Proof.
split; [reflexivity | apply exponential_cov_symmetric; reflexivity].
Defined.

(** C8.  Every diagonal entry of [exponential_cov(P, P, theta)] equals the
    amplitude [theta_0], and [exponential_cov(u, u, theta) = theta_0] for
    every scalar [u]. *)
Theorem exponential_cov_diagonal (theta P : seq R) :
  (1 < size theta)%N ->
  (exists K : 'M[R]_(size P),
     exponential_cov (Pts P) (Pts P) theta = Ok (Arr2 K)
     /\ forall i : 'I_(size P), K i i = nth 0 theta 0)
  /\ forall u : R, exponential_cov (Pt u) (Pt u) theta = Ok (Arr0 (nth 0 theta 0)).
Proof.
move=> sz; split=> [|u]; last by rewrite exponential_cov_scalars // sqexp_diag.
exists (cov_matrix P P theta); split; first exact: exponential_cov_lists.
by move=> i; rewrite mxE sqexp_diag.
Qed.

Lemma exponential_cov_diagonal_witness :
  (1 < size nb_theta)%N
  /\ (exists K : 'M[R]_(size [:: (-0.7)%Re; 1%Re]),
        exponential_cov (Pts [:: (-0.7)%Re; 1%Re]) (Pts [:: (-0.7)%Re; 1%Re])
          nb_theta = Ok (Arr2 K)
        /\ forall i : 'I_(size [:: (-0.7)%Re; 1%Re]), K i i = nth 0 nb_theta 0)
  /\ forall u : R,
       exponential_cov (Pt u) (Pt u) nb_theta = Ok (Arr0 (nth 0 nb_theta 0)).
Proof.
split; [reflexivity | apply exponential_cov_diagonal; reflexivity].
Defined.

(** C9, as stated: "the evaluator fails if and only if the hyperparameter
    vector is malformed".  It does not: the vector [[1, -10]] has a
    non-positive entry, and the evaluator returns a value for it. *)
Lemma negative_lengthscale_accepted :
  ~ fails_iff_malformed (Pt 0%Re) (Pt 0%Re) [:: 1%Re; (-10)%Re].
Proof.
move=> [_ bad]; have [|e] := bad.
  by right; exists 1%N => //=; Lra.lra.
by rewrite exponential_cov_scalars.
Qed.

(** C9, amended.  The evaluator raises exactly when the hyperparameter
    vector has fewer than two entries, and the error is the index error of
    the lookup [params[0]] or [params[1]]; on every other vector, whatever
    its length and the sign of its entries, it returns the kernel applied
    to every entry of the outer difference. *)
Theorem exponential_cov_raises_iff_short (x y : points) (theta : seq R) :
  exponential_cov x y theta
  = if (size theta < 2)%N then Raise IndexError
    else Ok (amap (fun d => (nth 0 theta 0
                             * exp (- nth 0 theta 1 / 2 * d ^ 2))%Re)
               (subtract_outer x y)).
Proof.
case: ltnP => sz; first exact: exponential_cov_short.
exact: exponential_cov_ok.
Qed.

(** C10.  The result of [exponential_cov(x, y, params)] depends only on
    [params[0]] and [params[1]]: two vectors of length at least two that
    agree there give the same result on the same points, and no error is
    raised, whatever the length beyond two and the sign of the entries. *)
Theorem exponential_cov_first_two (x y : points) (p q : seq R) :
  (1 < size p)%N -> (1 < size q)%N ->
  nth 0 p 0 = nth 0 q 0 -> nth 0 p 1 = nth 0 q 1 ->
  exponential_cov x y p = exponential_cov x y q
  /\ exists K : ndarray, exponential_cov x y p = Ok K.
Proof.
move=> sp sq e0 e1; rewrite !exponential_cov_ok // e0 e1; split=> //.
by eexists.
Qed.

Lemma exponential_cov_first_two_witness :
  (1 < size [:: 1%Re; (-10)%Re])%N
  /\ (1 < size [:: 1%Re; (-10)%Re; 5%Re])%N
  /\ nth 0 [:: 1%Re; (-10)%Re] 0 = nth 0 [:: 1%Re; (-10)%Re; 5%Re] 0
  /\ nth 0 [:: 1%Re; (-10)%Re] 1 = nth 0 [:: 1%Re; (-10)%Re; 5%Re] 1
  /\ (exponential_cov (Pts nb_x) (Pt 0%Re) [:: 1%Re; (-10)%Re]
      = exponential_cov (Pts nb_x) (Pt 0%Re) [:: 1%Re; (-10)%Re; 5%Re]
      /\ exists K : ndarray,
           exponential_cov (Pts nb_x) (Pt 0%Re) [:: 1%Re; (-10)%Re] = Ok K).
Proof.
do 4 (split; [reflexivity |]).
apply exponential_cov_first_two; reflexivity.
Defined.

(** * Further properties of the notebook's functions *)

Section EvaluatorShape.

Implicit Types (theta a b : seq R) (x y : points).

Lemma sqexp_even theta (d : R) :
  (nth 0 theta 0 * exp (- nth 0 theta 1 / 2 * (- d) ^ 2))%Re
  = (nth 0 theta 0 * exp (- nth 0 theta 1 / 2 * d ^ 2))%Re.
Proof. by congr (_ * exp _)%Re; Lra.lra. Qed.

Lemma subtract_outer_swap (f : R -> R) x y :
  (forall d, f (- d) = f d) ->
  amap f (subtract_outer y x) = transpose (amap f (subtract_outer x y)).
Proof.
move=> even; case: x y => [u|s] [v|t] /=.
- by rewrite -even opprB.
- by congr Arr1; apply/rowP => j; rewrite !mxE -even opprB.
- by congr Arr1; apply/rowP => j; rewrite !mxE -even opprB.
- by congr Arr2; apply/matrixP => i j; rewrite !mxE -even opprB.
Qed.



End EvaluatorShape.

(** X1.  Swapping the two point arguments of [exponential_cov] transposes
    the result, for floats and lists alike and whatever the
    hyperparameters (both calls raise the same index error on a short
    vector). *)
Theorem exponential_cov_swap (x y : points) (theta : seq R) :
  exponential_cov y x theta
  = (K <- exponential_cov x y theta ;; Ok (transpose K)).
Proof.
case: (ltnP (size theta) 2) => sz; first by rewrite !exponential_cov_short.
rewrite !exponential_cov_ok // bind_ok; congr Ok.
by apply: subtract_outer_swap => d; exact: sqexp_even.
Qed.



Section ScalarQuery.

Implicit Types (theta x y : seq R).

Lemma dot21_row (m n : nat) (A : 'M[R]_(m, n)) (w : 'rV[R]_n) :
  dot (Arr2 A) (Arr1 w) = Ok (Arr1 (A *m w^T)^T).
Proof. by rewrite /dot (aligned_eq _ erefl) castmx_id. Qed.

Lemma dot11_row (n : nat) (v w : 'rV[R]_n) :
  dot (Arr1 v) (Arr1 w) = Ok (Arr0 ((v *m w^T) 0 0)).
Proof. by rewrite /dot (aligned_eq _ erefl) castmx_id. Qed.

Lemma kernel_rowE theta (u : R) x :
  kernel_row theta u x = cov_matrix [:: u] x theta.
Proof. by apply/rowP => j; rewrite !mxE. Qed.

Lemma transpose_row (n : nat) (v : 'rV[R]_n) : transpose (Arr1 v) = Arr1 v.
Proof. by []. Qed.

Lemma exponential_cov_scalar_list theta (u : R) x :
  (1 < size theta)%N ->
  exponential_cov (Pt u) (Pts x) theta = Ok (Arr1 (kernel_row theta u x)).
Proof.
move=> sz; rewrite exponential_cov_ok //=; congr (Ok (Arr1 _)).
by apply/rowP => j; rewrite !mxE.
Qed.

End ScalarQuery.

(** X4.  Passing the query point to [conditional] as a float or as a
    one-element list gives the same outcome, errors included. *)
Theorem conditional_scalar_query (theta : seq R) (u : R) (x y : seq R) :
  conditional (Pt u) (Pts x) (Pts y) theta
  = conditional (Pts [:: u]) (Pts x) (Pts y) theta.
Proof.
case: (ltnP (size theta) 2) => sz; first by rewrite !conditional_short_params.
have [uC|sC] := boolP (cov_matrix x x theta \in unitmx); last first.
  rewrite conditional_singular // /conditional exponential_cov_scalar_list //.
  by rewrite exponential_cov_lists // !bind_ok exponential_cov_scalars // bind_ok inv_singular.
have [/eqP sy|ne] := boolP (size y == size x); last first.
  rewrite conditional_misaligned // /conditional exponential_cov_scalar_list //.
  rewrite exponential_cov_lists // !bind_ok exponential_cov_scalars // bind_ok.
  rewrite inv_unit // bind_ok transpose_row dot21_row bind_ok transpose_row.
  by rewrite [asarray _]/= /dot aligned_neq.
rewrite conditional_eval // squeeze_row1 squeeze_mx11.
rewrite /conditional exponential_cov_scalar_list //.
rewrite exponential_cov_lists // !bind_ok exponential_cov_scalars // bind_ok.
rewrite inv_unit // !bind_ok transpose_row dot21_row !bind_ok transpose_row.
rewrite [asarray _]/= dot11 // !bind_ok dot21_row bind_ok dot11_row bind_ok.
rewrite asub00 bind_ok /squeeze kernel_rowE.
congr (Ok (Arr0 _, Arr0 _)); first by rewrite [RHS]mxE.
rewrite trmxK [RHS]mxE [X in _ = _ + X]mxE [X in _ = X + _]mxE.
done.
Qed.

Section SingularCovariance.

Implicit Types (theta x : seq R).



End SingularCovariance.






Section PredictOutcome.

Implicit Types (theta data t : seq R).







End PredictOutcome.



Section BadSigma.

Implicit Types (theta data : seq R).



End BadSigma.



Section PredictionLoop.

Implicit Types (theta x_pred x y : seq R).

Lemma mapM_total (T U : Type) (f : T -> result U) (g : T -> U) (s : seq T) :
  (forall a, f a = Ok (g a)) -> mapM f s = Ok [seq g a | a <- s].
Proof. by move=> fg; elim: s => [//|a s IH]; rewrite [LHS]/= fg bind_ok IH bind_ok. Qed.

Lemma mapM_item0 (T : Type) (h : T -> R) (s : seq T) :
  mapM item0 [seq Arr0 (h a) | a <- s] = Ok [seq h a | a <- s].
Proof. by elim: s => [//|a s IH]; rewrite [LHS]/= IH. Qed.

Lemma Arr1_vec (n : nat) (v : 'rV[R]_n) (s : seq R) :
  size s = n -> (forall j : 'I_n, nth 0 s j = v 0 j) -> Arr1 (vec s) = Arr1 v.
Proof.
move=> e; case: n / e v => v same; congr Arr1.
by apply/rowP => j; rewrite mxE same.
Qed.

Lemma row_of_cov theta x_pred x (i : 'I_(size x_pred)) :
  row i (cov_matrix x_pred x theta) = cov_matrix [:: nth 0 x_pred i] x theta.
Proof. by apply/rowP => j; rewrite !mxE. Qed.

Lemma mulmx_entry_row (m n p : nat) (A : 'M[R]_(m, n)) (X : 'M[R]_(n, p)) i k :
  (A *m X) i k = (row i A *m X) 0 k.
Proof. by rewrite -row_mul [RHS]mxE. Qed.

Lemma mulmx_entry_col (m n p : nat) (X : 'M[R]_(m, n)) (A : 'M[R]_(n, p)) i k :
  (X *m A) i k = (X *m col k A) i 0.
Proof. by rewrite !mxE; apply: eq_bigr => j _; rewrite mxE. Qed.

Lemma posterior_mean_entry theta x_pred x y (Ci : 'M[R]_(size x))
    (i : 'I_(size x_pred)) :
  posterior_mean theta x_pred x y Ci i 0
  = (cov_matrix [:: nth 0 x_pred i] x theta *m Ci *m col_of (size x) y) 0 0.
Proof.
by rewrite /posterior_mean -!mulmxA mulmx_entry_row row_of_cov.
Qed.

Lemma posterior_cov_diag theta x_pred x (Ci : 'M[R]_(size x))
    (i : 'I_(size x_pred)) :
  posterior_cov theta x_pred x Ci i i
  = sqexp theta (nth 0 x_pred i) (nth 0 x_pred i)
    - (cov_matrix [:: nth 0 x_pred i] x theta *m Ci
       *m (cov_matrix [:: nth 0 x_pred i] x theta)^T) 0 0.
Proof.
rewrite /posterior_cov [LHS]mxE [X in X + _]mxE [X in _ + X]mxE.
congr (_ - _); rewrite -!mulmxA mulmx_entry_row row_of_cov !mulmxA.
by rewrite mulmx_entry_col -tr_row row_of_cov.
Qed.

Lemma predictions_eval theta x_pred x y :
  (1 < size theta)%N -> size y = size x ->
  cov_matrix x x theta \in unitmx ->
  let Ci := invmx (cov_matrix x x theta) in
  predictions x_pred x theta (Arr2 (cov_matrix x x theta)) y
  = Ok [seq (Arr0 ((cov_matrix [:: u] x theta *m Ci *m col_of (size x) y) 0 0),
             Arr0 (sqexp theta u u
                   - (cov_matrix [:: u] x theta *m Ci
                      *m (cov_matrix [:: u] x theta)^T) 0 0))
       | u <- x_pred].
Proof.
move=> sz sy uC Ci; apply: mapM_total => u.
exact: predict_eval.
Qed.

End PredictionLoop.

(** X11.  The prediction loop agrees with one batch call: for a non-empty
    grid, the two arrays unpacked from [np.transpose(predictions)] are the
    mean vector and the diagonal of the covariance matrix that
    [conditional] computes for the whole grid. *)
Theorem prediction_loop_matches_batch (theta x_pred x y : seq R) :
  (1 < size theta)%N -> size y = size x ->
  cov_matrix x x theta \in unitmx -> (0 < size x_pred)%N ->
  exists (mu : 'rV[R]_(size x_pred)) (Sigma : 'M[R]_(size x_pred)),
    conditional (Pts x_pred) (Pts x) (Pts y) theta
    = Ok (squeeze (Arr1 mu), squeeze (Arr2 Sigma))
    /\ (l <- predictions x_pred x theta (Arr2 (cov_matrix x x theta)) y ;;
        transpose_pairs l)
       = Ok (Arr1 mu, Arr1 (\row_i Sigma i i)).
Proof.
move=> sz sy uC n0.
exists (posterior_mean theta x_pred x y (invmx (cov_matrix x x theta)))^T.
exists (posterior_cov theta x_pred x (invmx (cov_matrix x x theta))).
split; first exact: conditional_moments.
rewrite predictions_eval // bind_ok.
case: x_pred n0 => [//|a s] _; rewrite /transpose_pairs.
rewrite -!map_comp !mapM_item0 !bind_ok.
congr (Ok (_, _)); apply: Arr1_vec; rewrite ?size_map // => j.
- by rewrite (nth_map 0) // [RHS]mxE posterior_mean_entry.
- by rewrite (nth_map 0) // [RHS]mxE posterior_cov_diag.
Qed.

Lemma prediction_loop_matches_batch_witness :
  (1 < size nb_theta)%N
  /\ size [:: 0.5%Re] = size nb_x
  /\ cov_matrix nb_x nb_x nb_theta \in unitmx
  /\ (0 < size [:: (-0.7)%Re; 0%Re; 2%Re])%N
  /\ exists (mu : 'rV[R]_(size [:: (-0.7)%Re; 0%Re; 2%Re]))
            (Sigma : 'M[R]_(size [:: (-0.7)%Re; 0%Re; 2%Re])),
       conditional (Pts [:: (-0.7)%Re; 0%Re; 2%Re]) (Pts nb_x)
         (Pts [:: 0.5%Re]) nb_theta
       = Ok (squeeze (Arr1 mu), squeeze (Arr2 Sigma))
       /\ (l <- predictions [:: (-0.7)%Re; 0%Re; 2%Re] nb_x nb_theta
                  (Arr2 (cov_matrix nb_x nb_x nb_theta)) [:: 0.5%Re] ;;
           transpose_pairs l)
          = Ok (Arr1 mu, Arr1 (\row_i Sigma i i)).
Proof.
split; [reflexivity | split; [reflexivity | split; [exact nb_cov_unit |]]].
split; [reflexivity |].
apply prediction_loop_matches_batch;
  [reflexivity | reflexivity | exact nb_cov_unit | reflexivity].
Defined.



(** ** Appending an observation *)

Section Append.

Variable theta : seq R.
Implicit Types (x y : seq R) (p u : R) (f : nat -> R).

Lemma cov_matrix_gram x : cov_matrix x x theta = gram theta (size x) (nth 0 x).
Proof. by []. Qed.

Lemma kernel_row_gram u x :
  cov_matrix [:: u] x theta = gram_row theta u (size x) (nth 0 x).
Proof. by apply/rowP => j; rewrite !mxE. Qed.

Lemma gram_ext N f g :
  (forall i, (i < N)%N -> f i = g i) -> gram theta N f = gram theta N g.
Proof. by move=> fg; apply/matrixP => i j; rewrite !mxE !fg. Qed.

Lemma gram_row_ext u N f g :
  (forall i, (i < N)%N -> f i = g i) ->
  gram_row theta u N f = gram_row theta u N g.
Proof. by move=> fg; apply/rowP => j; rewrite !mxE fg. Qed.

Lemma gram_sym N f : (gram theta N f)^T = gram theta N f.
Proof. by apply/matrixP => i j; rewrite !mxE sqexp_sym. Qed.

(** One more point adds one row and one column. *)
Lemma gram_succ n f :
  gram theta (n + 1) f
  = block_mx (gram theta n f) (gram_row theta (f n) n f)^T
             (gram_row theta (f n) n f) (sqexp theta (f n) (f n))%:M.
Proof.
apply/matrixP => i j; rewrite !mxE.
case: (splitP i) => i' ei; rewrite !mxE; case: (splitP j) => j' ej;
  rewrite !mxE ei ej ?ord1 ?addn0 ?mulr1n //.
exact: sqexp_sym.
Qed.

Lemma gram_row_succ u n f :
  gram_row theta u (n + 1) f
  = row_mx (gram_row theta u n f) (sqexp theta u (f n))%:M.
Proof.
apply/rowP => j; rewrite !mxE.
by case: (splitP j) => j' ej; rewrite !mxE ej ?ord1 ?addn0 ?mulr1n.
Qed.

Lemma nth_rcons_old x p i : (i < size x)%N -> nth 0 (rcons x p) i = nth 0 x i.
Proof. by move=> lt; rewrite nth_rcons lt. Qed.

Lemma nth_rcons_new x p : nth 0 (rcons x p) (size x) = p.
Proof. by rewrite nth_rcons ltnn eqxx. Qed.

(** The determinant of a bordered matrix, by the Schur complement. *)
Lemma det_border (n : nat) (C : 'M[R]_n) (k : 'rV[R]_n) (d : R) :
  C \in unitmx ->
  \det (block_mx C k^T k d%:M) = \det C * (d - (k *m invmx C *m k^T) 0 0).
Proof.
move=> uC.
have -> : block_mx C k^T k d%:M
        = block_mx C 0 k 1%:M
          *m block_mx 1%:M (invmx C *m k^T) 0 (d%:M - k *m invmx C *m k^T).
  rewrite mulmx_block !mulmx1 !mulmx0 !mul0mx !addr0 mul1mx mulKVmx //.
  by rewrite mulmxA addrC subrK.
rewrite det_mulmx det_lblock det_ublock !det1 mulr1 mul1r det_mx11.
by rewrite [X in _ * X]mxE [X in _ * (X + _)]mxE [X in _ * (_ + X)]mxE eqxx mulr1n.
Qed.

End Append.

Section AppendSample.

Variable theta : seq R.
Implicit Types (x y : seq R) (p u : R).

Lemma gram_rcons x p :
  gram theta (size x + 1) (nth 0 (rcons x p))
  = block_mx (cov_matrix x x theta) (cov_matrix [:: p] x theta)^T
             (cov_matrix [:: p] x theta) (sqexp theta p p)%:M.
Proof.
rewrite gram_succ nth_rcons_new cov_matrix_gram kernel_row_gram.
have -> : gram theta (size x) (nth 0 (rcons x p)) = gram theta (size x) (nth 0 x).
  by apply: gram_ext => i; exact: nth_rcons_old.
have -> // : gram_row theta p (size x) (nth 0 (rcons x p))
           = gram_row theta p (size x) (nth 0 x).
by apply: gram_row_ext => i; exact: nth_rcons_old.
Qed.

Lemma gram_row_rcons u x p :
  gram_row theta u (size x + 1) (nth 0 (rcons x p))
  = row_mx (cov_matrix [:: u] x theta) (sqexp theta u p)%:M.
Proof.
rewrite gram_row_succ nth_rcons_new kernel_row_gram.
have -> // : gram_row theta u (size x) (nth 0 (rcons x p))
           = gram_row theta u (size x) (nth 0 x).
by apply: gram_row_ext => i; exact: nth_rcons_old.
Qed.

Lemma posterior_var_entry x p (Ci : 'M[R]_(size x)) :
  posterior_cov theta [:: p] x Ci 0 0
  = sqexp theta p p
    - (cov_matrix [:: p] x theta *m Ci *m (cov_matrix [:: p] x theta)^T) 0 0.
Proof.
by rewrite /posterior_cov [LHS]mxE [X in X + _]mxE [X in _ + X]mxE.
Qed.

(** Over the reals, the grown covariance is invertible exactly when the
    variance at the new point, given the points observed so far, is not
    zero. *)
Lemma cov_matrix_rcons_unit x p :
  cov_matrix x x theta \in unitmx ->
  (cov_matrix (rcons x p) (rcons x p) theta \in unitmx)
  = (posterior_cov theta [:: p] x (invmx (cov_matrix x x theta)) 0 0 != 0).
Proof.
move=> uC; rewrite cov_matrix_gram size_rcons -[(size x).+1]addn1.
rewrite gram_rcons unitmxE det_border // unitfE mulf_eq0 negb_or.
by rewrite -unitfE -unitmxE uC posterior_var_entry.
Qed.

End AppendSample.



(** ** The notebook's second state

    In exact arithmetic two observed points at different locations have an
    invertible covariance, so the hypotheses of the theorems above are met
    beyond a single observed point. *)

Section TwoPoints.

Variable theta : seq R.
Hypothesis theta0_gt0 : (0 < nth 0 theta 0)%Re.
Hypothesis theta1_gt0 : (0 < nth 0 theta 1)%Re.

Lemma scalar_entry (a : R) : (a%:M : 'M[R]_1) 0 0 = a.
Proof. by rewrite mxE eqxx mulr1n. Qed.

Lemma sqexp_decay_lt1 (p x0 : R) :
  p <> x0 -> (exp (- nth 0 theta 1 / 2 * (p - x0) ^ 2) < 1)%Re.
Proof.
move=> ne; rewrite -exp_0; apply: exp_increasing.
have sq : (0 < (p - x0) ^ 2)%Re.
  by rewrite -Rsqr_pow2; apply: Rsqr_pos_lt => /Rminus_diag_uniq.
by Lra.nra.
Qed.

Lemma cov_matrix_two_points (x0 p : R) :
  p <> x0 -> cov_matrix (rcons [:: x0] p) (rcons [:: x0] p) theta \in unitmx.
Proof.
move=> ne.
have t0 : nth 0 theta 0 != 0.
  by apply/eqP => z; move: theta0_gt0; rewrite z; exact: Rlt_irrefl.
rewrite cov_matrix_rcons_unit ?cov_matrix_unit1 // posterior_var_entry.
rewrite !cov_matrix11 !sqexp_diag invmx_scalar tr_scalar_mx -!scalar_mxM.
rewrite scalar_entry /sqexp.
set e := exp _; set a := nth 0 theta 0.
have e_lt1 : (e < 1)%Re by exact: sqexp_decay_lt1.
have e_gt0 : (0 < e)%Re by exact: exp_pos.
have ai : (a * / a = 1)%Re by apply: Rinv_r; exact/eqP.
apply/eqP; unring => z.
have h : (a * e * / a * (a * e) = a * / a * (a * (e * e)))%Re by Lra.lra.
move: z; rewrite h ai => z.
have a_gt0 : (0 < a)%Re := theta0_gt0.
have ee_lt1 : (0 < 1 - e * e)%Re by Lra.nra.
have := Rmult_lt_0_compat _ _ a_gt0 ee_lt1.
by Lra.lra.
Qed.

End TwoPoints.

Section NotebookSecondPoint.

Lemma nb_theta0_gt0 : (0 < nth 0 nb_theta 0)%Re.
Proof. by rewrite /=; Lra.lra. Qed.

Lemma nb_theta1_gt0 : (0 < nth 0 nb_theta 1)%Re.
Proof. by rewrite /=; Lra.lra. Qed.

Lemma nb_second_point : (-0.7)%Re <> 1%Re.
Proof. by Lra.lra. Qed.

(** The notebook's second state, [x = [1., -0.7]], has an invertible
    covariance. *)
Lemma nb_cov2_unit :
  cov_matrix (rcons nb_x (-0.7)%Re) (rcons nb_x (-0.7)%Re) nb_theta \in unitmx.
Proof.
exact: (cov_matrix_two_points nb_theta0_gt0 nb_theta1_gt0 nb_second_point).
Qed.

End NotebookSecondPoint.

(** At the second state the two routes to the posterior agree, for every
    query point and all outputs. *)
Example nb_second_state_agree (u y0 y1 : R) :
  predict u (rcons nb_x (-0.7)%Re) exponential_cov nb_theta
    (Arr2 (cov_matrix (rcons nb_x (-0.7)%Re) (rcons nb_x (-0.7)%Re) nb_theta))
    (Pts [:: y0; y1])
  = conditional (Pts [:: u]) (Pts (rcons nb_x (-0.7)%Re)) (Pts [:: y0; y1])
      nb_theta.
Proof. by apply: predict_matches_conditional => //; exact: nb_cov2_unit. Qed.
